(** * Session history store and vector retrieval of the LangChain tutorials

    The chatbot notebook keeps one [ChatMessageHistory] per session id in
    the module-level dictionary [store], reaches it through
    [get_session_history], and truncates what is sent to the model with
    [filter_messages] (a Python slice [messages[-k:]]).  The retriever
    notebook only calls a third-party vector store; the [VectorIndex] of
    the specification is modelled in module [Vectors]. *)

From Stdlib Require Import ZArith Lia Reals Lra.
From stdpp Require Import gmap strings list sorting.

Local Open Scope Z_scope.

(** ** Outcome of a call: a returned value or a raised error *)

Inductive Error : Type :=
  | DimensionMismatch
  | InvalidArgument.

Inductive outcome (A : Type) : Type :=
  | Returned (a : A)
  | Raised (e : Error).

Arguments Returned {A} a.
Arguments Raised {A} e.

(** ** Python list slicing [l[start:]] *)

Section Slicing.
Context {A : Type}.

(** CPython clamps the start index of [l[start:]]: a negative start is
    counted from the end and floored at 0, a start past the end is the
    length. *)
Definition slice_start (len : nat) (start : Z) : nat :=
  if start <? 0
  then Z.to_nat (Z.max 0 (start + Z.of_nat len))
  else Z.to_nat (Z.min start (Z.of_nat len)).

Definition slice_from (l : list A) (start : Z) : list A :=
  drop (slice_start (length l) start) l.

(** The last [n] elements of a list, all of it when it is shorter. *)
Definition last_n (n : nat) (l : list A) : list A :=
  drop (length l - n)%nat l.

End Slicing.

(** ** Messages and the chatbot notebook *)

Module Chat.

Inductive Role : Type := human | ai | system.

Record Message : Type := mkMessage { role : Role; content : string }.

Definition HumanMessage (c : string) : Message := mkMessage human c.
Definition AIMessage (c : string) : Message := mkMessage ai c.
Definition SystemMessage (c : string) : Message := mkMessage system c.

(** [langchain_community.chat_message_histories.ChatMessageHistory]:
    a list of messages with [add_message] (append) and [clear]. *)
Record ChatMessageHistory : Type := mkHistory { messages : list Message }.

Definition new_history : ChatMessageHistory := mkHistory [].
Definition add_message (h : ChatMessageHistory) (m : Message) : ChatMessageHistory :=
  mkHistory (messages h ++ [m]).
Definition clear (h : ChatMessageHistory) : ChatMessageHistory := mkHistory [].

(** [store = {}]: session id to history. *)
Abbreviation Store := (gmap string ChatMessageHistory).

(** [[
    def get_session_history(session_id):
        if session_id not in store:
            store[session_id] = ChatMessageHistory()
        return store[session_id]
    ]]
    The returned object is the one held by the dictionary; the state
    after the call is returned next to it. *)
Definition get_session_history (session_id : string) (store : Store)
  : ChatMessageHistory * Store :=
  match store !! session_id with
  | None => (new_history, <[session_id := new_history]> store)
  | Some h => (h, store)
  end.

(** [[
    def filter_messages(messages, k=10):
        return messages[-k:]
    ]] *)
Definition filter_messages (messages : list Message) (k : Z) : list Message :=
  slice_from messages (- k).

Definition filter_messages_default_k : Z := 10.

(** The call seen from Python: slicing a list by an integer never
    raises. *)
Definition invoke_filter_messages (messages : list Message) (k : Z)
  : outcome (list Message) :=
  Returned (filter_messages messages k).

(** *** The store operations of the specification, on the notebook's code *)

(** [append]: what [RunnableWithMessageHistory] does with a new message.
    It fetches the session's history with [get_session_history] and
    [add_message]s to it; the history is the dictionary's own object, so
    the dictionary entry changes. *)
Definition append (store : Store) (session_key : string) (turn : Message) : Store :=
  let '(h, store') := get_session_history session_key store in
  <[session_key := add_message h turn]> store'.

(** [window]: the history fetched with [get_session_history], its
    messages handed to [filter_messages]. *)
Definition window (store : Store) (session_key : string) (k : Z)
  : list Message * Store :=
  let '(h, store') := get_session_history session_key store in
  (filter_messages (messages h) k, store').

(** Modelled from the spec: [reset] (section 4.1) clears the sequence of
    a session without removing the key; the notebook never calls it.
    Here it is the history's [clear], reached like every other access
    through [get_session_history]. *)
Definition reset (store : Store) (session_key : string) : Store :=
  let '(h, store') := get_session_history session_key store in
  <[session_key := clear h]> store'.

(** The turns stored for a key; a key the dictionary does not hold has
    none. *)
Definition transcript (store : Store) (session_key : string) : list Message :=
  match store !! session_key with
  | Some h => messages h
  | None => []
  end.

(** *** The chain of the "Managing Conversation History" cell

    [[
    chain = (
        RunnablePassthrough.assign(messages=lambda x: filter_messages(x["messages"]))
        | prompt
        | model
    )
    ]] *)
Record ChainInput : Type := mkInput { input_messages : list Message; language : string }.

Definition assign_messages (x : ChainInput) : ChainInput :=
  mkInput (filter_messages (input_messages x) filter_messages_default_k) (language x).

(** The prompt in force: one system message with the language filled
    in, then the placeholder's messages. *)
Definition prompt (x : ChainInput) : list Message :=
  SystemMessage
    ("You are a helpful assistant. Answer all questions to the best of your ability in "
       +:+ language x +:+ ".")
  :: input_messages x.

Definition model_input (x : ChainInput) : list Message := prompt (assign_messages x).

Section Chain.
Variable model : list Message -> Message.
Definition chain (x : ChainInput) : Message := model (model_input x).
End Chain.

End Chat.


(** ** The vector index

    The retriever notebook builds its store with [Chroma.from_documents]
    and queries it with [similarity_search], [similarity_search_by_vector]
    and [as_retriever]; the store itself is a library and none of its code
    is in the notebook.  The definitions of this module follow sections 3
    and 4.2 of the specification, over the real numbers. *)

Module Vectors.

Local Open Scope R_scope.

#[global] Instance Rlt_decision : RelDecision Rlt := Rlt_dec.
#[global] Instance Rle_decision : RelDecision Rle := Rle_dec.

(** Modelled from the spec: the record type of the index (section 3:
    id, content, metadata, embedding); the notebook has no such type. *)
Record VectorRecord : Type := mkRecord {
  id : string;
  content : string;
  metadata : gmap string string;
  embedding : list R
}.

(** Modelled from the spec: the index (section 3).  The collection is
    kept in insertion order, which section 4.2 uses to break ties; the
    dimensionality is set by the first insert. *)
Record VectorIndex : Type := mkIndex {
  dimensionality : option nat;
  records : list VectorRecord
}.

Definition empty_index : VectorIndex := mkIndex None [].

(** Modelled from the spec: [insert] (section 4.2) validates the length
    of the embedding against the index's dimensionality, or sets the
    dimensionality on the first insert, fails with [DimensionMismatch]
    otherwise, and appends to the collection. *)
Definition insert (record : VectorRecord) (index : VectorIndex)
  : outcome unit * VectorIndex :=
  match dimensionality index with
  | None =>
      (Returned tt, mkIndex (Some (length (embedding record))) (records index ++ [record]))
  | Some d =>
      if decide (length (embedding record) = d)
      then (Returned tt, mkIndex (Some d) (records index ++ [record]))
      else (Raised DimensionMismatch, index)
  end.

(** Modelled from the spec: the three metrics of section 4.2. *)
Inductive Metric : Type := cosine | dot_product | euclidean.

Definition is_distance (metric : Metric) : bool :=
  match metric with
  | euclidean => true
  | cosine | dot_product => false
  end.

Definition sum (l : list R) : R := foldr Rplus 0 l.

Definition dot (a b : list R) : R := sum (zip_with Rmult a b).

Definition norm (a : list R) : R := sqrt (dot a a).

Definition cosine_similarity (a b : list R) : R := dot a b / (norm a * norm b).

Definition euclidean_distance (a b : list R) : R :=
  sqrt (sum (map (fun d => d * d) (zip_with Rminus a b))).

Definition score (metric : Metric) (query_embedding e : list R) : R :=
  match metric with
  | cosine => cosine_similarity query_embedding e
  | dot_product => dot query_embedding e
  | euclidean => euclidean_distance query_embedding e
  end.

(** Modelled from the spec: the sort direction of section 4.2, descending
    score for a similarity and ascending for a distance.  [better metric
    s1 s2] says that score [s1] ranks strictly ahead of [s2]. *)
Definition better (metric : Metric) (s1 s2 : R) : Prop :=
  if is_distance metric then s1 < s2 else s2 < s1.

#[global] Instance better_dec metric s1 s2 : Decision (better metric s1 s2) :=
  match is_distance metric as b return Decision (if b then s1 < s2 else s2 < s1) with
  | true => Rlt_dec s1 s2
  | false => Rlt_dec s2 s1
  end.

(** Modelled from the spec: the threshold cut of section 4.2, in the
    metric's natural direction: a record less similar, or farther, than
    the threshold is dropped. *)
Definition passes (metric : Metric) (threshold : option R) (s : R) : Prop :=
  match threshold with
  | None => True
  | Some t => if is_distance metric then s <= t else t <= s
  end.

#[global] Instance passes_dec metric threshold s : Decision (passes metric threshold s) :=
  match threshold as o return Decision (passes metric o s) with
  | None => left I
  | Some t =>
      match is_distance metric as b return Decision (if b then s <= t else t <= s) with
      | true => Rle_dec s t
      | false => Rle_dec t s
      end
  end.

(** Records paired with their insertion position. *)
Fixpoint enumerate_from {A : Type} (i : nat) (l : list A) : list (nat * A) :=
  match l with
  | [] => []
  | x :: l' => (i, x) :: enumerate_from (S i) l'
  end.

Section Ranking.
Variable metric : Metric.
Variable query_embedding : list R.

Definition score_of (x : nat * VectorRecord) : R :=
  score metric query_embedding (embedding (snd x)).

(** Stable insertion: [x] goes behind exactly the candidates that score
    strictly better, so among equal scores the earlier one stays ahead. *)
Fixpoint place (x : nat * VectorRecord) (l : list (nat * VectorRecord))
  : list (nat * VectorRecord) :=
  match l with
  | [] => [x]
  | y :: l' =>
      if decide (better metric (score_of y) (score_of x))
      then y :: place x l'
      else x :: y :: l'
  end.

Definition sort_by_score (l : list (nat * VectorRecord)) : list (nat * VectorRecord) :=
  foldr place [] l.

End Ranking.

(** Modelled from the spec: the ranking behind [query] (section 4.2):
    score every stored record, drop those the threshold excludes, sort by
    score with ties in insertion order, keep the top [k]. *)
Definition ranked (index : VectorIndex) (query_embedding : list R) (k : Z)
  (metric : Metric) (threshold : option R) : list (nat * VectorRecord) :=
  take (Z.to_nat k)
    (sort_by_score metric query_embedding
       (filter (fun x => passes metric threshold (score_of metric query_embedding x))
          (enumerate_from 0 (records index)))).

(** Modelled from the spec: [query] (section 4.2) with its failure modes:
    an empty index answers every query with an empty result, a query
    vector of another dimensionality is a [DimensionMismatch], and
    [k <= 0] gives an empty result. *)
Definition query (index : VectorIndex) (query_embedding : list R) (k : Z)
  (metric : Metric) (threshold : option R) : outcome (list VectorRecord) :=
  match records index with
  | [] => Returned []
  | _ :: _ =>
      if decide (dimensionality index = Some (length query_embedding))
      then
        if decide (k <= 0)%Z
        then Returned []
        else Returned (map snd (ranked index query_embedding k metric threshold))
      else Raised DimensionMismatch
  end.

(** Modelled from the spec: [query_by_text] (section 4.2) embeds the text
    with the caller's embedding function and delegates to [query]. *)
Definition query_by_text (index : VectorIndex) (query_text : string)
  (embedder : string -> list R) (k : Z) (metric : Metric) (threshold : option R)
  : outcome (list VectorRecord) :=
  query index (embedder query_text) k metric threshold.

(** Every stored embedding has the index's dimensionality, and an index
    without a dimensionality is empty. *)
Definition well_formed (index : VectorIndex) : Prop :=
  match dimensionality index with
  | None => records index = []
  | Some d => Forall (fun r => length (embedding r) = d) (records index)
  end.

(** The lexicographic order of a result: strictly better score first,
    and among equal scores the earlier insertion first. *)
Definition ranks_before (metric : Metric) (query_embedding : list R)
  (x y : nat * VectorRecord) : Prop :=
  better metric (score_of metric query_embedding x) (score_of metric query_embedding y)
  \/ (score_of metric query_embedding x = score_of metric query_embedding y
      /\ (fst x < fst y)%nat).

End Vectors.


(** ** Scenarios of the specification *)

Module Scenario.
Import Vectors.
Local Open Scope R_scope.

Definition plain (name : string) (e : list R) : VectorRecord :=
  mkRecord name name ∅ e.

(** Section 8: records [A=[1,0]], [B=[0,1]], [C=[0.9,0.1]], inserted in
    that order into an empty index. *)
Definition A : VectorRecord := plain "A" [1; 0].
Definition B : VectorRecord := plain "B" [0; 1].
Definition C : VectorRecord := plain "C" [9 / 10; 1 / 10].

Definition index_ABC : VectorIndex :=
  snd (insert C (snd (insert B (snd (insert A empty_index))))).

(** Section 8: an index already holding a vector of dimensionality 4,
    and a record of dimensionality 3. *)
Definition index_4 : VectorIndex :=
  snd (insert (plain "four" [1; 2; 3; 4]) empty_index).

Definition three : VectorRecord := plain "three" [1; 2; 3].

(** Two records in the same direction, the longer one inserted first. *)
Definition far : VectorRecord := plain "far" [2; 0].
Definition near : VectorRecord := plain "near" [1; 0].

Definition index_far : VectorIndex := snd (insert far empty_index).


(** The conversation of the "Managing Conversation History" cell, with
    the question the notebook appends to it. *)
Definition conversation : list Chat.Message :=
  [ Chat.HumanMessage "hi! I'm bob";
    Chat.AIMessage "hi!";
    Chat.HumanMessage "I like moose tracks ice cream";
    Chat.AIMessage "nice";
    Chat.HumanMessage "whats 2 + 2";
    Chat.AIMessage "4";
    Chat.HumanMessage "thanks";
    Chat.AIMessage "no problem!";
    Chat.HumanMessage "having fun?";
    Chat.AIMessage "yes!" ].

Definition question : Chat.ChainInput :=
  Chat.mkInput (conversation ++ [Chat.HumanMessage "What's my name?"]) "English".

End Scenario.

(** * Properties *)

(** ** Slicing *)

Section SlicingFacts.
Context {A : Type}.
Implicit Types (l : list A) (k : Z).

Lemma slice_start_positive (len : nat) k :
  0 < k -> slice_start len (- k) = (len - Z.to_nat k)%nat.
Proof.
  intros Hk. unfold slice_start.
  destruct (Z.ltb_spec (- k) 0); lia.
Qed.

Lemma slice_start_zero (len : nat) : slice_start len (- 0) = 0%nat.
Proof. unfold slice_start. simpl. lia. Qed.

Lemma slice_start_negative (len : nat) k :
  k < 0 -> slice_start len (- k) = Nat.min (Z.to_nat (- k)) len.
Proof.
  intros Hk. unfold slice_start.
  destruct (Z.ltb_spec (- k) 0); lia.
Qed.

Lemma drop_min_length (n : nat) l : drop (Nat.min n (length l)) l = drop n l.
Proof.
  destruct (Nat.le_gt_cases n (length l)) as [Hle | Hgt].
  - now rewrite Nat.min_l.
  - rewrite Nat.min_r by lia. rewrite !drop_ge; [reflexivity | lia | lia].
Qed.

Lemma last_n_length (n : nat) l : length (last_n n l) = Nat.min n (length l).
Proof. unfold last_n. rewrite length_drop. lia. Qed.

Lemma last_n_suffix (n : nat) l : l = take (length l - n) l ++ last_n n l.
Proof. unfold last_n. now rewrite take_drop. Qed.

Lemma last_n_min (n : nat) l : last_n (Nat.min n (length l)) l = last_n n l.
Proof. unfold last_n. f_equal. lia. Qed.

End SlicingFacts.

(** ** The session store *)

Section SessionStore.
Import Chat.
Implicit Types (store : Store) (k : Z) (m : Message).

Lemma filter_messages_positive (msgs : list Message) k :
  0 < k -> filter_messages msgs k = last_n (Z.to_nat k) msgs.
Proof.
  intros Hk. unfold filter_messages, slice_from, last_n.
  now rewrite slice_start_positive.
Qed.

Lemma filter_messages_nil k : filter_messages [] k = [].
Proof. unfold filter_messages, slice_from. apply drop_nil. Qed.

Lemma get_session_history_lookup store (s : string) :
  snd (get_session_history s store) !! s = Some (fst (get_session_history s store)).
Proof.
  unfold get_session_history. destruct (store !! s) eqn:E; simpl.
  - exact E.
  - apply lookup_insert_eq.
Qed.

Lemma get_session_history_messages store (s : string) :
  messages (fst (get_session_history s store)) = transcript store s.
Proof.
  unfold get_session_history, transcript. now destruct (store !! s).
Qed.

Lemma get_session_history_other store (s s' : string) :
  s <> s' -> snd (get_session_history s store) !! s' = store !! s'.
Proof.
  intros Hne. unfold get_session_history. destruct (store !! s); simpl.
  - reflexivity.
  - now apply lookup_insert_ne.
Qed.

Lemma get_session_history_transcript store (s s' : string) :
  transcript (snd (get_session_history s store)) s' = transcript store s'.
Proof.
  unfold transcript. destruct (decide (s = s')) as [<- | Hne].
  - rewrite get_session_history_lookup.
    unfold get_session_history. now destruct (store !! s).
  - now rewrite get_session_history_other.
Qed.

Lemma append_unfold store (s : string) m :
  append store s m
  = <[s := add_message (fst (get_session_history s store)) m]>
      (snd (get_session_history s store)).
Proof. unfold append. now destruct (get_session_history s store). Qed.

Lemma window_unfold store (s : string) k :
  window store s k
  = (filter_messages (transcript store s) k, snd (get_session_history s store)).
Proof.
  unfold window. rewrite <- get_session_history_messages.
  now destruct (get_session_history s store).
Qed.

Lemma reset_unfold store (s : string) :
  reset store s
  = <[s := clear (fst (get_session_history s store))]>
      (snd (get_session_history s store)).
Proof. unfold reset. now destruct (get_session_history s store). Qed.

Lemma transcript_append store (s : string) m :
  transcript (append store s m) s = transcript store s ++ [m].
Proof.
  rewrite append_unfold. unfold transcript at 1.
  rewrite lookup_insert_eq. simpl. now rewrite get_session_history_messages.
Qed.

Lemma transcript_appends store (s : string) (turns : list Message) :
  transcript (foldl (fun st m => append st s m) store turns) s
  = transcript store s ++ turns.
Proof.
  revert store. induction turns as [| m turns IH]; intros store; simpl.
  - now rewrite app_nil_r.
  - rewrite IH, transcript_append. now rewrite <- app_assoc.
Qed.

Lemma transcript_window store (s s' : string) k :
  transcript (snd (window store s k)) s' = transcript store s'.
Proof. rewrite window_unfold. simpl. apply get_session_history_transcript. Qed.

(** For a window of at least one turn the slice is the last
    [min k length] turns of the session, whatever sequence of appends
    built it, and the stored transcript is as before. *)
Lemma window_positive store (s : string) (turns : list Message) k :
  1 <= k ->
  let store' := foldl (fun st m => append st s m) store turns in
  let stored := transcript store s ++ turns in
  fst (window store' s k)
  = last_n (Z.to_nat (Z.min k (Z.of_nat (length stored)))) stored
  /\ length (fst (window store' s k)) = Z.to_nat (Z.min k (Z.of_nat (length stored)))
  /\ transcript (snd (window store' s k)) s = stored.
Proof.
  intros Hk store' stored.
  assert (Hst : transcript store' s = stored) by apply transcript_appends.
  rewrite transcript_window, window_unfold, Hst. simpl.
  rewrite filter_messages_positive by lia.
  assert (Hmin : Z.to_nat (Z.min k (Z.of_nat (length stored)))
                 = Nat.min (Z.to_nat k) (length stored)) by lia.
  rewrite Hmin, last_n_min, last_n_length. auto.
Qed.

End SessionStore.

(** ** Windowing *)

Section Windowing.
Import Chat.
Implicit Types (store : Store) (k : Z).

(** C1, at the input where the code departs from it: after
    [append("s1", hi)] and [append("s1", hello)] on the empty store,
    [window("s1", 0)] is the slice [messages[-0:]], which is both stored
    turns and not the last [min(0, 2) = 0] of them; the stored transcript
    is left as it was. *)
Theorem window_zero_returns_whole_session :
  let hi := HumanMessage "hi" in
  let hello := AIMessage "hello" in
  let store := append (append ∅ "s1" hi) "s1" hello in
  fst (window store "s1" 0) = [hi; hello]
  /\ fst (window store "s1" 0) <> last_n (Z.to_nat (Z.min 0 2)) [hi; hello]
  /\ transcript (snd (window store "s1" 0)) "s1" = [hi; hello].
Proof.
  intros hi hello store.
  assert (Hst : transcript store "s1" = [hi; hello]).
  { unfold store. now rewrite !transcript_append. }
  rewrite transcript_window, window_unfold, Hst. simpl.
  split; [reflexivity | split; [discriminate | reflexivity]].
Qed.

(** C2, as the code has it: with [k = 0] the slice [messages[-0:]] is
    [messages[0:]], so [filter_messages(messages, 0)] is the whole
    sequence; it is empty only when the sequence is. *)
Theorem filter_messages_zero_returns_all (msgs : list Message) :
  filter_messages msgs 0 = msgs
  /\ (filter_messages msgs 0 = [] <-> msgs = []).
Proof.
  assert (H : filter_messages msgs 0 = msgs).
  { unfold filter_messages, slice_from. now rewrite slice_start_zero. }
  rewrite H. tauto.
Qed.

(** C7: on a key with no stored turns (never appended to), [window]
    returns the empty sequence for every [k], and the store it leaves is
    the store that [reset] of that key leaves: the key holds an empty
    history. *)
Theorem window_unknown_key store (s : string) k :
  transcript store s = [] ->
  window store s k = ([], reset store s)
  /\ reset store s !! s = Some new_history.
Proof.
  intros Hempty.
  rewrite window_unfold, reset_unfold, Hempty, filter_messages_nil.
  unfold transcript in Hempty. unfold get_session_history.
  destruct (store !! s) as [h |] eqn:E; simpl.
  - destruct h as [ms]; simpl in Hempty; subst ms.
    unfold clear. split.
    + f_equal. symmetry. now apply insert_id.
    + apply lookup_insert_eq.
  - unfold clear. split.
    + f_equal. symmetry. apply insert_insert_eq.
    + apply lookup_insert_eq.
Qed.

Lemma window_unknown_key_witness :
  transcript (∅ : Store) "abc3" = []
  /\ window ∅ "abc3" 10 = ([], reset ∅ "abc3")
  /\ reset (∅ : Store) "abc3" !! "abc3" = Some new_history.
Proof.
  split; [reflexivity |].
  apply (window_unknown_key ∅ "abc3" 10). reflexivity.
Defined.

(** C8, refuted at [k = -1]: the call returns a sequence of turns; no
    error is raised. *)
Lemma negative_k_is_not_rejected :
  invoke_filter_messages [HumanMessage "a"; AIMessage "b"; HumanMessage "c"] (-1)
  <> Raised InvalidArgument.
Proof. discriminate. Qed.

(** C8, amended: with a negative [k] the call raises nothing; the slice
    [messages[-k:]] starts at index [-k], so the call returns the
    sequence without its first [-k] turns. *)
Theorem negative_k_drops_oldest (msgs : list Message) k :
  k < 0 ->
  invoke_filter_messages msgs k = Returned (drop (Z.to_nat (- k)) msgs).
Proof.
  intros Hk. unfold invoke_filter_messages, filter_messages, slice_from.
  now rewrite slice_start_negative, drop_min_length.
Qed.

Lemma negative_k_drops_oldest_witness :
  -1 < 0
  /\ invoke_filter_messages [HumanMessage "a"; AIMessage "b"; HumanMessage "c"] (-1)
     = Returned [AIMessage "b"; HumanMessage "c"].
Proof.
  split; [lia |].
  apply (negative_k_drops_oldest
           [HumanMessage "a"; AIMessage "b"; HumanMessage "c"] (-1)). lia.
Defined.

(** C9: an [append], [window] or [reset] on key [s1] leaves the entry of
    every other key [s2] as it was, and a key has one session: a second
    access returns the session the first access returned and changes
    nothing. *)
Theorem session_isolation store (s1 s2 : string) (m : Message) k :
  s1 <> s2 ->
  append store s1 m !! s2 = store !! s2
  /\ snd (window store s1 k) !! s2 = store !! s2
  /\ reset store s1 !! s2 = store !! s2
  /\ get_session_history s1 (snd (get_session_history s1 store))
     = get_session_history s1 store.
Proof.
  intros Hne.
  rewrite append_unfold, window_unfold, reset_unfold. simpl.
  rewrite !lookup_insert_ne by assumption.
  rewrite get_session_history_other by assumption.
  repeat split.
  unfold get_session_history at 1.
  rewrite get_session_history_lookup.
  now destruct (get_session_history s1 store).
Qed.

Lemma session_isolation_witness :
  let store : Store := append ∅ "abc2" (HumanMessage "Hi! I'm Bob") in
  "abc3" <> "abc2"
  /\ append store "abc3" (HumanMessage "What's my name?") !! "abc2" = store !! "abc2"
  /\ snd (window store "abc3" 10) !! "abc2" = store !! "abc2"
  /\ reset store "abc3" !! "abc2" = store !! "abc2"
  /\ get_session_history "abc3" (snd (get_session_history "abc3" store))
     = get_session_history "abc3" store.
Proof.
  intros store.
  split; [discriminate |].
  apply (session_isolation store "abc3" "abc2" (HumanMessage "What's my name?") 10).
  discriminate.
Defined.

(** C10: the chain calls [filter_messages] without [k], so [k] is the
    default 10: on an input of at least 10 messages the model receives
    the prompt's system message followed by exactly the last 10 messages
    of the input, and every older message is left out. *)
Theorem chain_keeps_last_ten (model : list Message -> Message) (x : ChainInput) :
  (10 <= length (input_messages x))%nat ->
  let kept := last_n 10 (input_messages x) in
  filter_messages (input_messages x) filter_messages_default_k = kept
  /\ length kept = 10%nat
  /\ input_messages x = take (length (input_messages x) - 10) (input_messages x) ++ kept
  /\ chain model x = model (prompt (mkInput kept (language x))).
Proof.
  intros Hlen kept.
  assert (H : filter_messages (input_messages x) filter_messages_default_k = kept).
  { unfold filter_messages_default_k. now rewrite filter_messages_positive. }
  repeat split.
  - exact H.
  - unfold kept. rewrite last_n_length. lia.
  - apply last_n_suffix.
  - unfold chain, model_input, assign_messages. now rewrite H.
Qed.

Lemma chain_keeps_last_ten_witness :
  (10 <= length (input_messages Scenario.question))%nat
  /\ filter_messages (input_messages Scenario.question) filter_messages_default_k
     = drop 1 (input_messages Scenario.question)
  /\ length (drop 1 (input_messages Scenario.question)) = 10%nat.
Proof.
  split; [vm_compute; lia |].
  destruct (chain_keeps_last_ten (fun _ => AIMessage "") Scenario.question)
    as (H1 & H2 & _); [vm_compute; lia |].
  split; [exact H1 | exact H2].
Defined.

End Windowing.

(** ** Ranking *)

Section SortedFacts.
Context {A : Type} (R : A -> A -> Prop).

Lemma StronglySorted_take (n : nat) (l : list A) :
  StronglySorted R l -> StronglySorted R (take n l).
Proof.
  intros H. revert n. induction H as [| x l Hl IH Hx]; intros [| n]; simpl;
    try constructor.
  - apply IH.
  - now apply Forall_take.
Qed.

Lemma StronglySorted_filter (P : A -> Prop) `{!forall x, Decision (P x)} (l : list A) :
  StronglySorted R l -> StronglySorted R (filter P l).
Proof.
  induction 1 as [| x l Hl IH Hx].
  - constructor.
  - rewrite filter_cons. destruct (decide (P x)); [| exact IH].
    constructor; [exact IH |].
    apply Forall_forall. intros y Hy. apply list_elem_of_filter in Hy.
    rewrite Forall_forall in Hx. now apply Hx.
Qed.

End SortedFacts.

Section RankingFacts.
Import Vectors.
Local Open Scope R_scope.

Lemma better_irrefl metric s : ~ better metric s s.
Proof. unfold better. destruct (is_distance metric); lra. Qed.

Lemma better_trans metric s1 s2 s3 :
  better metric s1 s2 -> better metric s2 s3 -> better metric s1 s3.
Proof. unfold better. destruct (is_distance metric); lra. Qed.

Lemma not_better_cases metric s1 s2 :
  ~ better metric s1 s2 -> better metric s2 s1 \/ s2 = s1.
Proof. unfold better. destruct (is_distance metric); lra. Qed.

Variable metric : Metric.
Variable q : list R.

Lemma ranks_before_trans x y z :
  ranks_before metric q x y -> ranks_before metric q y z -> ranks_before metric q x z.
Proof.
  unfold ranks_before, better.
  destruct (is_distance metric); intros [H1 | [H1 H1']] [H2 | [H2 H2']];
    ((left; lra) || (right; split; [lra | lia])).
Qed.

Lemma place_cons_better x y l :
  better metric (score_of metric q y) (score_of metric q x) ->
  place metric q x (y :: l) = y :: place metric q x l.
Proof.
  intros H. simpl.
  now destruct (decide (better metric (score_of metric q y) (score_of metric q x))).
Qed.

Lemma place_cons_not_better x y l :
  ~ better metric (score_of metric q y) (score_of metric q x) ->
  place metric q x (y :: l) = x :: y :: l.
Proof.
  intros H. simpl.
  now destruct (decide (better metric (score_of metric q y) (score_of metric q x))).
Qed.

Lemma place_Permutation x l : place metric q x l ≡ₚ x :: l.
Proof.
  induction l as [| y l IH]; simpl; [reflexivity |].
  destruct (decide (better metric (score_of metric q y) (score_of metric q x)));
    [| reflexivity].
  rewrite IH. apply Permutation_swap.
Qed.

Lemma sort_by_score_Permutation l : sort_by_score metric q l ≡ₚ l.
Proof.
  induction l as [| x l IH]; simpl; [reflexivity |].
  now rewrite place_Permutation, IH.
Qed.

Lemma sort_by_score_length l : length (sort_by_score metric q l) = length l.
Proof. now rewrite sort_by_score_Permutation. Qed.

Lemma Forall_sort_by_score (P : nat * VectorRecord -> Prop) l :
  Forall P l -> Forall P (sort_by_score metric q l).
Proof. now rewrite sort_by_score_Permutation. Qed.

(** Placing a candidate that was inserted earlier than everything in a
    ranked list keeps the list ranked. *)
Lemma place_ranked x l :
  StronglySorted (ranks_before metric q) l ->
  Forall (fun y => (fst x < fst y)%nat) l ->
  StronglySorted (ranks_before metric q) (place metric q x l).
Proof.
  induction 1 as [| y l Hl IH Hy]; intros Hpos; simpl.
  - repeat constructor.
  - apply Forall_cons in Hpos as [Hxy Hpos].
    destruct (decide (better metric (score_of metric q y) (score_of metric q x)))
      as [Hb | Hnb].
    + constructor; [now apply IH |].
      rewrite place_Permutation. constructor; [now left | exact Hy].
    + assert (Hx : ranks_before metric q x y).
      { destruct (not_better_cases _ _ _ Hnb) as [H | H]; [now left | right].
        split; [now symmetry | exact Hxy]. }
      constructor; [now constructor |].
      constructor; [exact Hx |].
      eapply Forall_impl; [exact Hy |]. intros z Hz.
      now apply ranks_before_trans with y.
Qed.

Lemma sort_by_score_ranked l :
  StronglySorted (fun x y => (fst x < fst y)%nat) l ->
  StronglySorted (ranks_before metric q) (sort_by_score metric q l).
Proof.
  induction 1 as [| x l Hl IH Hx]; simpl; [constructor |].
  apply place_ranked; [exact IH |]. now apply Forall_sort_by_score.
Qed.


End RankingFacts.

(** ** The vector index *)

Section EnumerateFacts.
Import Vectors.
Context {A : Type}.
Implicit Types (l : list A) (i : nat).



Lemma enumerate_from_lookup i l :
  Forall (fun p => (i <= fst p)%nat /\ l !! (fst p - i)%nat = Some (snd p))
    (enumerate_from i l).
Proof.
  revert i. induction l as [| x l IH]; intros i; simpl; constructor.
  - simpl. now rewrite Nat.sub_diag.
  - eapply Forall_impl; [apply IH |]. intros [j y] [Hle Hj]; simpl in *.
    split; [lia |].
    replace (j - i)%nat with (S (j - S i)) by lia. exact Hj.
Qed.

Lemma enumerate_from_increasing i l :
  StronglySorted (fun x y : nat * A => (fst x < fst y)%nat) (enumerate_from i l).
Proof.
  revert i. induction l as [| x l IH]; intros i; simpl; constructor.
  - apply IH.
  - eapply Forall_impl; [apply (enumerate_from_lookup (S i) l) |].
    intros [j y] [Hle _]; simpl in *. lia.
Qed.

End EnumerateFacts.

Section QueryFacts.
Import Vectors.
Local Open Scope R_scope.
Implicit Types (index : VectorIndex) (q : list R) (k : Z) (metric : Metric).

Lemma ranked_length index q k metric threshold :
  (0 <= k)%Z ->
  (Z.of_nat (length (ranked index q k metric threshold)) <= k)%Z.
Proof. intros Hk. unfold ranked. rewrite length_take. lia. Qed.

Lemma ranked_from_index index q k metric threshold :
  Forall (fun p => records index !! fst p = Some (snd p)
                   /\ passes metric threshold (score metric q (embedding (snd p))))
    (ranked index q k metric threshold).
Proof.
  unfold ranked. apply Forall_take, Forall_sort_by_score.
  apply Forall_forall. intros p Hp. apply list_elem_of_filter in Hp as [Hpass Hp].
  pose proof (enumerate_from_lookup 0 (records index)) as H.
  rewrite Forall_forall in H. destruct (H p Hp) as [_ Hl].
  rewrite Nat.sub_0_r in Hl. now split.
Qed.

Lemma ranked_sorted index q k metric threshold :
  StronglySorted (ranks_before metric q) (ranked index q k metric threshold).
Proof.
  unfold ranked. apply StronglySorted_take, sort_by_score_ranked.
  apply StronglySorted_filter, enumerate_from_increasing.
Qed.


Lemma well_formed_insert (record : VectorRecord) index :
  well_formed index -> well_formed (snd (insert record index)).
Proof.
  unfold well_formed, insert. intros Hwf.
  destruct (dimensionality index) as [d |] eqn:E; simpl.
  - destruct (decide (length (embedding record) = d)) as [Hd | Hd]; simpl.
    + apply Forall_app. split; [exact Hwf | now repeat constructor].
    + now rewrite E.
  - rewrite Hwf. now repeat constructor.
Qed.

Lemma well_formed_empty : well_formed empty_index.
Proof. reflexivity. Qed.

End QueryFacts.

Section QueryClaims.
Import Vectors.
Local Open Scope R_scope.
Implicit Types (index : VectorIndex) (q : list R) (k : Z) (metric : Metric).

(** C3: on a non-empty index and for [k >= 0], whatever [query] returns
    has at most [k] records, every one of them stored in the index;
    they are ranked by the metric (a strictly better score first:
    greater for a similarity, smaller for a distance) and, among equal
    scores, by insertion position, earliest first; a query vector of the
    index's dimensionality does get such a result, any other is a
    [DimensionMismatch]. *)
Theorem query_ranked index q k metric threshold :
  records index <> [] ->
  (0 <= k)%Z ->
  (dimensionality index = Some (length q) ->
   exists hits,
     query index q k metric threshold = Returned (map snd hits)
     /\ (Z.of_nat (length (map snd hits)) <= k)%Z
     /\ Forall (fun p => records index !! fst p = Some (snd p)) hits
     /\ StronglySorted (ranks_before metric q) hits)
  /\ (dimensionality index <> Some (length q) ->
      query index q k metric threshold = Raised DimensionMismatch).
Proof.
  intros Hne Hk. unfold query.
  destruct (records index) as [| r0 rs] eqn:Hrec; [congruence |].
  destruct (decide (dimensionality index = Some (length q))) as [Hd | Hd];
    split; intros Hd'; try congruence.
  destruct (decide (k <= 0)%Z) as [Hk0 | Hk0].
  - exists []. simpl. repeat split; [lia | constructor | constructor].
  - exists (ranked index q k metric threshold). repeat split.
    + rewrite length_map. now apply ranked_length.
    + rewrite <- Hrec. eapply Forall_impl; [apply ranked_from_index |].
      now intros p [H _].
    + apply ranked_sorted.
Qed.

End QueryClaims.

(** ** Distances and the scenarios *)

Section MetricFacts.
Import Vectors.
Local Open Scope R_scope.





Lemma cosine_A : score cosine [1; 0] [1; 0] = 1.
Proof.
  unfold score, cosine_similarity, norm, dot, sum. simpl.
  replace (1 * 1 + (0 * 0 + 0)) with 1 by lra.
  rewrite sqrt_1. lra.
Qed.

Lemma cosine_B : score cosine [1; 0] [0; 1] = 0.
Proof.
  unfold score, cosine_similarity, norm, dot, sum. simpl.
  replace (1 * 0 + (0 * 1 + 0)) with 0 by lra.
  unfold Rdiv. apply Rmult_0_l.
Qed.

Lemma cosine_C :
  0 < score cosine [1; 0] [9 / 10; 1 / 10] < 1.
Proof.
  unfold score, cosine_similarity, norm, dot, sum. simpl.
  replace (1 * 1 + (0 * 0 + 0)) with 1 by lra.
  replace (1 * (9 / 10) + (0 * (1 / 10) + 0)) with (9 / 10) by lra.
  replace (9 / 10 * (9 / 10) + (1 / 10 * (1 / 10) + 0)) with (82 / 100) by lra.
  rewrite sqrt_1, Rmult_1_l.
  assert (Hs : 9 / 10 < sqrt (82 / 100)).
  { rewrite <- (sqrt_square (9 / 10)) at 1 by lra.
    apply sqrt_lt_1; lra. }
  split.
  - apply Rdiv_lt_0_compat; lra.
  - apply (Rmult_lt_reg_r (sqrt (82 / 100))); [lra |].
    unfold Rdiv. rewrite Rmult_assoc, Rinv_l by lra. lra.
Qed.

Lemma dot_self_nonneg (a : list R) : 0 <= dot a a.
Proof.
  unfold dot, sum. induction a as [| x a IH]; simpl; [lra |].
  change (0 <= x * x + foldr Rplus 0 (zip_with Rmult a a)). nra.
Qed.

(** Cauchy-Schwarz, squared: the dot product runs over the common
    prefix of the two vectors, the norms over all of each. *)
Lemma dot_squared_le (a b : list R) : dot a b * dot a b <= dot a a * dot b b.
Proof.
  revert b. induction a as [| x a IH]; intros [| y b].
  - unfold dot, sum; simpl; lra.
  - pose proof (dot_self_nonneg (y :: b)). unfold dot, sum in *; simpl in *; lra.
  - pose proof (dot_self_nonneg (x :: a)). unfold dot, sum in *; simpl in *; lra.
  - pose proof (dot_self_nonneg a) as HA. pose proof (dot_self_nonneg b) as HB.
    specialize (IH b).
    change (dot (x :: a) (y :: b)) with (x * y + dot a b).
    change (dot (x :: a) (x :: a)) with (x * x + dot a a).
    change (dot (y :: b) (y :: b)) with (y * y + dot b b).
    generalize dependent (dot a b). generalize dependent (dot a a).
    generalize dependent (dot b b). clear a b. intros B HB A HA d IH.
    pose proof (Rle_0_sqr (x * y)) as Hxy. unfold Rsqr in Hxy.
    assert (Hu : 0 <= x * x * B + y * y * A) by nra.
    assert (H1 : 0 <= (x * y) * (x * y) * (A * B - d * d))
      by (apply Rmult_le_pos; [exact Hxy | lra]).
    pose proof (Rle_0_sqr (x * x * B - y * y * A)) as H2. unfold Rsqr in H2.
    assert (Hsq : (2 * (x * y) * d) * (2 * (x * y) * d)
                  <= (x * x * B + y * y * A) * (x * x * B + y * y * A)) by nra.
    assert (Hv : 2 * (x * y) * d <= x * x * B + y * y * A).
    { destruct (Rle_lt_dec (2 * (x * y) * d) (x * x * B + y * y * A)) as [Hle | Hlt];
        [exact Hle | nra]. }
    nra.
Qed.

Lemma norm_nonneg (a : list R) : 0 <= norm a.
Proof. apply sqrt_pos. Qed.

Lemma norm_squared (a : list R) : norm a * norm a = dot a a.
Proof. apply sqrt_sqrt, dot_self_nonneg. Qed.

Lemma dot_le_norms (a b : list R) : dot a b <= norm a * norm b.
Proof.
  pose proof (dot_squared_le a b) as Hcs.
  pose proof (norm_nonneg a) as Ha. pose proof (norm_nonneg b) as Hb.
  rewrite <- (norm_squared a), <- (norm_squared b) in Hcs.
  set (p := norm a * norm b).
  assert (Hp : 0 <= p) by (unfold p; nra).
  assert (Hsq : dot a b * dot a b <= p * p) by (unfold p; nra).
  destruct (Rle_lt_dec (dot a b) p) as [Hle | Hlt]; [exact Hle | nra].
Qed.

(** No cosine similarity exceeds 1. *)
Lemma cosine_similarity_le_1 (a b : list R) : cosine_similarity a b <= 1.
Proof.
  unfold cosine_similarity.
  pose proof (dot_le_norms a b) as Hle.
  pose proof (norm_nonneg a) as Ha. pose proof (norm_nonneg b) as Hb.
  destruct (Req_dec (norm a * norm b) 0) as [H0 | Hn0].
  - rewrite H0, Rdiv_0_r. lra.
  - assert (Hp : 0 < norm a * norm b) by nra.
    apply (Rmult_le_reg_r (norm a * norm b)); [exact Hp |].
    unfold Rdiv. rewrite Rmult_assoc, Rinv_l by exact Hn0. lra.
Qed.


End MetricFacts.

Section ScenarioClaims.
Import Vectors.
Local Open Scope R_scope.

Lemma index_ABC_records :
  Scenario.index_ABC = mkIndex (Some 2%nat) [Scenario.A; Scenario.B; Scenario.C].
Proof. reflexivity. Qed.

(** C5: with [A=[1,0]], [B=[0,1]], [C=[0.9,0.1]] inserted in that order,
    [query([1,0], k=2)] under cosine similarity returns [[A, C]]. *)
Theorem scenario_cosine_top_two :
  query Scenario.index_ABC [1; 0] 2 cosine None = Returned [Scenario.A; Scenario.C].
Proof.
  rewrite index_ABC_records. unfold query. cbn [records dimensionality].
  destruct (decide (Some 2%nat = Some (length [1; 0]))) as [_ | Hn];
    [| now destruct Hn].
  destruct (decide (2 <= 0)%Z); [lia |].
  f_equal. unfold ranked. cbn [records].
  change (enumerate_from 0 [Scenario.A; Scenario.B; Scenario.C])
    with [(0%nat, Scenario.A); (1%nat, Scenario.B); (2%nat, Scenario.C)].
  rewrite !filter_cons_True by exact I. rewrite filter_nil.
  unfold sort_by_score. cbn [foldr].
  change (place cosine [1; 0] (2%nat, Scenario.C) []) with [(2%nat, Scenario.C)].
  pose proof cosine_A as HA. pose proof cosine_B as HB. pose proof cosine_C as HC.
  rewrite place_cons_better.
  2:{ unfold better, score_of. cbn [is_distance snd].
      change (embedding Scenario.B) with [0; 1].
      change (embedding Scenario.C) with [9 / 10; 1 / 10]. lra. }
  change (place cosine [1; 0] (1%nat, Scenario.B) []) with [(1%nat, Scenario.B)].
  rewrite place_cons_not_better.
  2:{ unfold better, score_of. cbn [is_distance snd].
      change (embedding Scenario.A) with [1; 0].
      change (embedding Scenario.C) with [9 / 10; 1 / 10]. lra. }
  reflexivity.
Qed.

(** C6: an insert whose embedding has another dimensionality than the
    index's fails with [DimensionMismatch] and returns the index it was
    given: the same records, the same count, the same dimensionality. *)
Theorem insert_dimension_mismatch (record : VectorRecord) (index : VectorIndex) (d : nat) :
  dimensionality index = Some d ->
  length (embedding record) <> d ->
  insert record index = (Raised DimensionMismatch, index)
  /\ length (records (snd (insert record index))) = length (records index).
Proof.
  intros Hd Hne. unfold insert. rewrite Hd.
  destruct (decide (length (embedding record) = d)); [contradiction |].
  now split.
Qed.

Lemma insert_dimension_mismatch_witness :
  dimensionality Scenario.index_4 = Some 4%nat
  /\ length (embedding Scenario.three) <> 4%nat
  /\ insert Scenario.three Scenario.index_4 = (Raised DimensionMismatch, Scenario.index_4)
  /\ length (records (snd (insert Scenario.three Scenario.index_4))) = 1%nat.
Proof.
  split; [reflexivity |]. split; [discriminate |].
  apply (insert_dimension_mismatch Scenario.three Scenario.index_4 4);
    [reflexivity | discriminate].
Defined.

Lemma query_ranked_witness :
  records Scenario.index_ABC <> []
  /\ (0 <= 2)%Z
  /\ (dimensionality Scenario.index_ABC = Some (length [1; 0]) ->
      exists hits,
        query Scenario.index_ABC [1; 0] 2 euclidean None = Returned (map snd hits)
        /\ (Z.of_nat (length (map snd hits)) <= 2)%Z
        /\ Forall (fun p => records Scenario.index_ABC !! fst p = Some (snd p)) hits
        /\ StronglySorted (ranks_before euclidean [1; 0]) hits).
Proof.
  split; [discriminate |]. split; [lia |].
  apply (query_ranked Scenario.index_ABC [1; 0] 2 euclidean None);
    [discriminate | lia].
Defined.

End ScenarioClaims.

(** ** Insert, then query with the same embedding *)

Section RoundTrip.
Import Vectors.
Local Open Scope R_scope.
Implicit Types (index : VectorIndex) (record : VectorRecord) (k : Z) (metric : Metric).

Lemma query_returns_ranked index (q : list R) k metric threshold :
  records index <> [] ->
  dimensionality index = Some (length q) ->
  (1 <= k)%Z ->
  query index q k metric threshold
  = Returned (map snd (ranked index q k metric threshold)).
Proof.
  intros Hne Hd Hk. unfold query.
  destruct (records index); [congruence |].
  destruct (decide (dimensionality index = Some (length q))); [| contradiction].
  destruct (decide (k <= 0)%Z); [lia | reflexivity].
Qed.




(** Under cosine similarity a record can tie without being a duplicate:
    [far = [2,0]] scores 1 against [[1,0]], as [near = [1,0]] does, and
    being the earlier one it stays ahead. *)
Lemma cosine_tie_without_duplicate :
  embedding Scenario.far <> embedding Scenario.near
  /\ score cosine (embedding Scenario.near) (embedding Scenario.far) = 1
  /\ query (snd (insert Scenario.near Scenario.index_far))
       (embedding Scenario.near) 1 cosine None
     = Returned [Scenario.far].
Proof.
  assert (Hfar : score cosine (embedding Scenario.near) (embedding Scenario.far) = 1).
  { unfold score, cosine_similarity, norm, dot, sum. simpl.
    replace (1 * 1 + (0 * 0 + 0)) with 1 by lra.
    replace (1 * 2 + (0 * 0 + 0)) with 2 by lra.
    replace (2 * 2 + (0 * 0 + 0)) with (2 * 2) by lra.
    rewrite sqrt_1, sqrt_square by lra. lra. }
  split; [| split; [exact Hfar |]].
  - simpl. intros H. injection H as H. lra.
  - change (snd (insert Scenario.near Scenario.index_far))
      with (mkIndex (Some 2%nat) [Scenario.far; Scenario.near]).
    rewrite query_returns_ranked; [| discriminate | reflexivity | lia].
    f_equal. unfold ranked. cbn [records].
    change (enumerate_from 0 [Scenario.far; Scenario.near])
      with [(0%nat, Scenario.far); (1%nat, Scenario.near)].
    rewrite !filter_cons_True by exact I. rewrite filter_nil.
    unfold sort_by_score. cbn [foldr].
    change (place cosine (embedding Scenario.near) (1%nat, Scenario.near) [])
      with [(1%nat, Scenario.near)].
    rewrite place_cons_not_better; [reflexivity |].
    unfold better, score_of. cbn [is_distance snd]. rewrite Hfar.
    pose proof (cosine_similarity_le_1 (embedding Scenario.near)
                  (embedding Scenario.near)) as Hle.
    unfold score. lra.
Qed.



End RoundTrip.

(** ** What [filter_messages] keeps, for every [k] *)

Section WindowShape.
Import Chat.
Implicit Types (msgs : list Message) (k : Z) (m : Message).

Lemma last_drop_lt {A : Type} (n : nat) (l : list A) :
  (n < length l)%nat -> last (drop n l) = last l.
Proof.
  intros Hn. rewrite !last_lookup, lookup_drop, length_drop. f_equal. lia.
Qed.

(** X1: whatever [k] is, the result of [filter_messages] is a suffix of
    its input: the input is some older messages followed by exactly the
    result, so nothing is reordered, repeated or made up, and only a
    prefix is ever left out. *)
Theorem filter_messages_suffix msgs k :
  filter_messages msgs k `suffix_of` msgs
  /\ msgs
     = take (length msgs - length (filter_messages msgs k)) msgs
       ++ filter_messages msgs k.
Proof.
  unfold filter_messages, slice_from. split; [apply suffix_drop |].
  rewrite length_drop.
  set (n := slice_start (length msgs) (- k)).
  assert (Hn : (n <= length msgs)%nat).
  { unfold n, slice_start. destruct (Z.ltb_spec (- k) 0); lia. }
  replace (length msgs - (length msgs - n))%nat with n by lia.
  now rewrite take_drop.
Qed.

(** X2: the number of messages kept, for every integer [k]:
    [min(k, length)] for a positive [k], and [max(0, length + k)]
    otherwise, which is the whole length at [k = 0]; so a positive [k]
    bounds the result by [k]. *)
Theorem filter_messages_length msgs k :
  Z.of_nat (length (filter_messages msgs k))
  = (if 0 <? k
     then Z.min k (Z.of_nat (length msgs))
     else Z.max 0 (Z.of_nat (length msgs) + k))
  /\ (0 < k -> Z.of_nat (length (filter_messages msgs k)) <= k).
Proof.
  unfold filter_messages, slice_from. rewrite length_drop. unfold slice_start.
  destruct (Z.ltb_spec (- k) 0), (Z.ltb_spec 0 k); split; intros; lia.
Qed.

(** X3: a sequence no longer than [k] is returned as it is. *)
Theorem filter_messages_short msgs k :
  Z.of_nat (length msgs) <= k -> filter_messages msgs k = msgs.
Proof.
  intros Hk. unfold filter_messages, slice_from.
  replace (slice_start (length msgs) (- k)) with 0%nat; [apply drop_0 |].
  unfold slice_start. destruct (Z.ltb_spec (- k) 0); lia.
Qed.

Lemma filter_messages_short_witness :
  Z.of_nat (length [HumanMessage "Hi! I'm Bob"]) <= 10
  /\ filter_messages [HumanMessage "Hi! I'm Bob"] 10 = [HumanMessage "Hi! I'm Bob"].
Proof.
  split; [simpl; lia |].
  apply (filter_messages_short [HumanMessage "Hi! I'm Bob"] 10). simpl. lia.
Defined.

(** X4: for [k >= 0] the newest message is never cut: the result ends
    with the message the input ends with. *)
Theorem filter_messages_keeps_newest msgs k :
  0 <= k -> last (filter_messages msgs k) = last msgs.
Proof.
  intros Hk. unfold filter_messages, slice_from.
  destruct msgs as [| m0 msgs]; [now rewrite drop_nil |].
  apply last_drop_lt. unfold slice_start. simpl length.
  destruct (Z.ltb_spec (- k) 0); lia.
Qed.

Lemma filter_messages_keeps_newest_witness :
  0 <= 1
  /\ last (filter_messages [HumanMessage "hi"; AIMessage "hello"] 1)
     = Some (AIMessage "hello").
Proof.
  split; [lia |].
  apply (filter_messages_keeps_newest [HumanMessage "hi"; AIMessage "hello"] 1). lia.
Defined.

(** X5: filtering twice with positive bounds is filtering once with the
    smaller bound; in particular filtering is idempotent for a positive
    [k]. *)
Theorem filter_messages_twice msgs k1 k2 :
  1 <= k1 -> 1 <= k2 ->
  filter_messages (filter_messages msgs k1) k2 = filter_messages msgs (Z.min k1 k2).
Proof.
  intros H1 H2. rewrite !filter_messages_positive by lia.
  unfold last_n. rewrite length_drop, drop_drop. f_equal. lia.
Qed.

Lemma filter_messages_twice_witness :
  1 <= 10 /\ 1 <= 2
  /\ filter_messages (filter_messages Scenario.conversation 10) 2
     = filter_messages Scenario.conversation 2.
Proof.
  split; [lia |]. split; [lia |].
  apply (filter_messages_twice Scenario.conversation 10 2); lia.
Defined.

(** X6: a wider positive window contains the narrower one: for
    [1 <= k1 <= k2] the result for [k1] is a suffix of the result for
    [k2]. *)
Theorem filter_messages_monotone msgs k1 k2 :
  1 <= k1 -> k1 <= k2 ->
  filter_messages msgs k1 `suffix_of` filter_messages msgs k2.
Proof.
  intros H1 H2. rewrite !filter_messages_positive by lia.
  unfold last_n.
  replace (length msgs - Z.to_nat k1)%nat
    with ((length msgs - Z.to_nat k2)
          + (length (drop (length msgs - Z.to_nat k2) msgs) - Z.to_nat k1))%nat
    by (rewrite length_drop; lia).
  rewrite <- drop_drop. apply suffix_drop.
Qed.

Lemma filter_messages_monotone_witness :
  1 <= 2 /\ 2 <= 10
  /\ filter_messages Scenario.conversation 2
     `suffix_of` filter_messages Scenario.conversation 10.
Proof.
  split; [lia |]. split; [lia |].
  apply (filter_messages_monotone Scenario.conversation 2 10); lia.
Defined.

(** X7: the window slides: for [k >= 2], filtering a sequence with one
    more message at its end keeps the last [k - 1] of the old sequence
    and the new message behind them. *)
Theorem filter_messages_snoc msgs m k :
  2 <= k ->
  filter_messages (msgs ++ [m]) k = filter_messages msgs (k - 1) ++ [m].
Proof.
  intros Hk. rewrite !filter_messages_positive by lia.
  unfold last_n. rewrite length_app. simpl length.
  rewrite drop_app_le by lia. do 2 f_equal. lia.
Qed.

Lemma filter_messages_snoc_witness :
  2 <= 10
  /\ filter_messages (Scenario.conversation ++ [HumanMessage "What's my name?"]) 10
     = filter_messages Scenario.conversation 9 ++ [HumanMessage "What's my name?"].
Proof.
  split; [lia |].
  apply (filter_messages_snoc Scenario.conversation (HumanMessage "What's my name?") 10).
  lia.
Defined.

End WindowShape.

(** ** The store under [get_session_history] *)

Section StoreShape.
Import Chat.
Implicit Types (store : Store) (s : string) (k : Z) (m : Message).

Lemma append_lookup_ne store s s' m :
  s <> s' -> append store s m !! s' = store !! s'.
Proof.
  intros Hne. rewrite append_unfold, lookup_insert_ne by assumption.
  now apply get_session_history_other.
Qed.

Lemma transcript_append_ne store s s' m :
  s <> s' -> transcript (append store s m) s' = transcript store s'.
Proof. intros Hne. unfold transcript. now rewrite append_lookup_ne. Qed.

(** X8: [get_session_history] only ever adds: every entry of the store
    is still there with the same history, the keys afterwards are the
    old keys and the requested one, and the store grows by one entry
    exactly when the key was not there. *)
Theorem get_session_history_extends store s :
  store ⊆ snd (get_session_history s store)
  /\ dom (snd (get_session_history s store)) = {[s]} ∪ dom store
  /\ size (snd (get_session_history s store))
     = (if decide (is_Some (store !! s)) then size store else S (size store)).
Proof.
  unfold get_session_history. destruct (store !! s) as [h |] eqn:E; simpl.
  - split; [reflexivity |]. split.
    + symmetry. apply subseteq_union_1_L, singleton_subseteq_l, elem_of_dom. eauto.
    + destruct (decide (is_Some (Some h))) as [_ | Hn]; [reflexivity |].
      exfalso. apply Hn. eauto.
  - split; [now apply insert_subseteq |]. split.
    + apply dom_insert_L.
    + destruct (decide (is_Some (@None ChatMessageHistory))) as [[h Hh] | _];
        [discriminate |].
      now apply map_size_insert_None.
Qed.

(** X9: the order in which two sessions are first accessed does not
    matter: both orders leave the same store, and the history returned
    for one key is the same whether or not the other key was accessed
    before. *)
Theorem get_session_history_commute store (s1 s2 : string) :
  snd (get_session_history s1 (snd (get_session_history s2 store)))
  = snd (get_session_history s2 (snd (get_session_history s1 store)))
  /\ (s1 <> s2 ->
      fst (get_session_history s1 (snd (get_session_history s2 store)))
      = fst (get_session_history s1 store)).
Proof.
  split.
  - destruct (decide (s1 = s2)) as [-> | Hne]; [reflexivity |].
    unfold get_session_history.
    destruct (store !! s1) as [h1 |] eqn:E1, (store !! s2) as [h2 |] eqn:E2; simpl;
      rewrite ?lookup_insert_ne by congruence; rewrite ?E1, ?E2; simpl;
      try reflexivity.
    now apply insert_insert_ne.
  - intros Hne. unfold get_session_history at 1 3.
    rewrite get_session_history_other by congruence.
    now destruct (store !! s1).
Qed.

(** X10: sessions interleave without mixing: after any sequence of
    appends to any keys, the transcript of a key is what it was before
    followed by the messages appended to that key, in the order of the
    appends. *)
Theorem transcript_interleaved store (events : list (string * Message)) s :
  transcript (foldl (fun st e => append st e.1 e.2) store events) s
  = transcript store s ++ (filter (fun e => e.1 = s) events).*2.
Proof.
  revert store. induction events as [| [s' m] events IH]; intros store; simpl.
  - now rewrite app_nil_r.
  - rewrite IH, filter_cons. simpl. destruct (decide (s' = s)) as [-> | Hne].
    + rewrite transcript_append. simpl. now rewrite <- app_assoc.
    + now rewrite transcript_append_ne.
Qed.

(** X11: what was appended last is what a window ends with: after an
    append to a key, a window of that key with [k >= 1] ends with the
    appended message, and the window with [k = 1] is that message
    alone. *)
Theorem window_after_append store s m k :
  1 <= k ->
  last (fst (window (append store s m) s k)) = Some m
  /\ fst (window (append store s m) s 1) = [m].
Proof.
  intros Hk. rewrite !window_unfold, transcript_append. simpl.
  rewrite !filter_messages_positive by lia. unfold last_n. split.
  - rewrite last_drop_lt by (rewrite length_app; simpl; lia). apply last_snoc.
  - rewrite length_app. simpl length. apply drop_app_length'. lia.
Qed.

Lemma window_after_append_witness :
  1 <= 10
  /\ last (fst (window (append ∅ "abc2" (HumanMessage "Hi! I'm Bob")) "abc2" 10))
     = Some (HumanMessage "Hi! I'm Bob")
  /\ fst (window (append ∅ "abc2" (HumanMessage "Hi! I'm Bob")) "abc2" 1)
     = [HumanMessage "Hi! I'm Bob"].
Proof.
  split; [lia |].
  apply (window_after_append ∅ "abc2" (HumanMessage "Hi! I'm Bob") 10). lia.
Defined.

(** X12: a window leaves every transcript as it was, the one it reads
    included; on a key the store holds it leaves the store itself
    unchanged; and taken again it returns the same messages. *)
Theorem window_read_only store s k :
  (forall s', transcript (snd (window store s k)) s' = transcript store s')
  /\ (is_Some (store !! s) -> snd (window store s k) = store)
  /\ fst (window (snd (window store s k)) s k) = fst (window store s k).
Proof.
  split; [| split].
  - intros s'. apply transcript_window.
  - intros [h Hh]. rewrite window_unfold. simpl.
    unfold get_session_history. now rewrite Hh.
  - rewrite (window_unfold (snd (window store s k))). simpl.
    now rewrite transcript_window, window_unfold.
Qed.

End StoreShape.

(** ** What the chain hands to the model *)

Section ChainShape.
Import Chat.
Implicit Types (x y : ChainInput).

Lemma assign_messages_last_ten x :
  input_messages (assign_messages x) = last_n 10 (input_messages x).
Proof.
  unfold assign_messages, filter_messages_default_k. simpl.
  now rewrite filter_messages_positive.
Qed.

(** X13: the chain bounds what the model receives: for every input the
    model gets the system message first and then [min(10, length)]
    messages, never more than 11 in all. *)
Theorem model_input_bounded x :
  length (model_input x) = S (Nat.min 10 (length (input_messages x)))
  /\ (length (model_input x) <= 11)%nat
  /\ exists text, head (model_input x) = Some (SystemMessage text).
Proof.
  unfold model_input, prompt. rewrite assign_messages_last_ten. simpl.
  rewrite last_n_length. repeat split; [lia | eauto].
Qed.

(** X14: an input of at most 10 messages goes to the prompt untouched:
    the filtering step changes nothing and the chain is the prompt
    followed by the model. *)
Theorem chain_short_input (model : list Message -> Message) x :
  (length (input_messages x) <= 10)%nat ->
  assign_messages x = x /\ chain model x = model (prompt x).
Proof.
  intros Hlen.
  assert (H : assign_messages x = x).
  { destruct x as [msgs lang]. unfold assign_messages. simpl in *. f_equal.
    unfold filter_messages_default_k, filter_messages, slice_from, slice_start.
    simpl. replace (Z.to_nat _) with 0%nat by lia. apply drop_0. }
  split; [exact H |]. unfold chain, model_input. now rewrite H.
Qed.

Lemma chain_short_input_witness :
  let x := mkInput [HumanMessage "Hi! I'm Todd"] "Spanish" in
  (length (input_messages x) <= 10)%nat
  /\ assign_messages x = x
  /\ chain (fun _ => AIMessage "Hola Todd!") x = AIMessage "Hola Todd!".
Proof.
  intros x. split; [simpl; lia |].
  apply (chain_short_input (fun _ => AIMessage "Hola Todd!") x). simpl. lia.
Defined.

Lemma append_full_stop_inj (a b : string) : a +:+ "." = b +:+ "." -> a = b.
Proof.
  revert b. induction a as [| c a IH]; intros [| c' b] H; simpl in H.
  - reflexivity.
  - injection H as _ H. destruct b; discriminate.
  - injection H as _ H. destruct a; discriminate.
  - injection H as Hc H. f_equal; [exact Hc | now apply IH].
Qed.

(** X15: what the chain hands to the model is fixed by the language and
    the last 10 messages, and by nothing else: two inputs give the model
    the same input exactly when they agree on the language and on their
    last 10 messages, whatever older messages they hold. *)
Theorem model_input_last_ten x y :
  model_input x = model_input y
  <-> language x = language y
      /\ last_n 10 (input_messages x) = last_n 10 (input_messages y).
Proof.
  unfold model_input, prompt. rewrite !assign_messages_last_ten.
  unfold assign_messages. cbn [language]. split.
  - intros H. injection H as Hs Hm. split; [| exact Hm].
    apply (inj (String.app _)) in Hs. now apply append_full_stop_inj.
  - intros [Hlang Hlast]. now rewrite Hlang, Hlast.
Qed.

End ChainShape.
